(** * localshare: the presence registry and the message log of [app.py]

    A shallow embedding of the Flask hub [src/app.py]: the two global
    stores ([users], [messages]), the request handlers that read and
    write them, and the background thread [prune_users].

    Modelling conventions.
    - [time.time()] and [uuid.uuid4()] are read from the environment, so
      every handler takes the clock reading [now] and the drawn token
      [uuid] as arguments.  Timestamps are Python floats in the source;
      the handlers only compare them and subtract them, and the model
      takes them in [Z] (ticks of the clock).
    - A request field obtained with [data.get(k)] is an [option string]:
      [None] when the key is missing.
    - A handler is a function from the state before the request to the
      HTTP response and the state after it.  The request body is taken
      to be a JSON object (or a form) whose fields are strings.
    - The bytes of an uploaded file and the disk are outside the model:
      whether [file.save] raised is an input of [send_file], and
      [secure_filename] (werkzeug) is a parameter.
    - [users] is a Python dict; the model is a [gmap], which forgets the
      insertion order of the keys (no handler depends on it except for
      the order of the roster and of the printed lines). *)

From stdpp Require Import gmap strings list fin_maps sorting.
From Stdlib Require Import Ascii.

Open Scope string_scope.
Open Scope list_scope.
Open Scope Z_scope.

(** ** Configuration (lines 10-12) *)

Definition USER_TIMEOUT : Z := 30.

(** ** Global state (lines 14-23) *)

(** [{"name": ..., "last_seen": ...}], the value stored under a user id. *)
Record user_info := UserInfo {
  name : string;
  last_seen : Z
}.

(** One entry of [messages]. *)
Record Message := mkMessage {
  msg_id : string;
  from_name : string;
  from_user_id : string;
  to_user_id : string;
  type : string;
  content : string;
  timestamp : Z
}.

(** The two stores, and the lines written by [print]. *)
Record state := State {
  users : gmap string user_info;
  messages : list Message;
  stdout : list string
}.

Definition initial_state : state :=
  {| users := ∅; messages := []; stdout := [] |}.

Global Instance user_info_eq_dec : EqDecision user_info.
Proof. solve_decision. Defined.

Global Instance Message_eq_dec : EqDecision Message.
Proof. solve_decision. Defined.

(** ** Responses *)

(** The JSON bodies the handlers build with [jsonify]. *)
Inductive body :=
  | Status_ok
  | Status_ok_login (user_id name : string)
  | Status_ok_file (filename : string)
  | Status_error (message : string)
  | User_list (l : list (string * string))
  | Message_list (l : list Message).

(** A response: the body and the HTTP status code. *)
Definition response : Type := body * Z.

Definition InvalidInput (r : response) : Prop := r.2 = 400.
Definition NotFound (r : response) : Prop := r.2 = 404.
Definition succeeded (r : response) : Prop := r.2 = 200.

(** ** Python truthiness of a request field *)

(** [not v] is true of [None] and of the empty string. *)
Definition truthy (v : option string) : bool :=
  match v with
  | Some s => bool_decide (s ≠ "")
  | None => false
  end.

(** [all([...])] over the truth values of its items. *)
Definition all (vs : list bool) : bool := forallb id vs.

Definition print (line : string) (s : state) : state :=
  {| users := users s; messages := messages s; stdout := stdout s ++ [line] |}.

(** ** [prune_users] (lines 28-42) *)

(** The test of line 37. *)
Definition active (timeout now : Z) (entry : string * user_info) : Prop :=
  now - last_seen entry.2 < timeout.

Global Instance active_dec timeout now entry : Decision (active timeout now entry).
Proof. unfold active. apply _. Defined.

(** The line printed for a pruned user (line 40). *)
Definition pruned_line (entry : string * user_info) : string :=
  "[Server] Pruned timed-out user: " +:+ name entry.2 +:+ " (" +:+ entry.1 +:+ ")".

(** One pass of the loop body once [time.sleep] has returned and the
    clock has been read as [now]: [active_users] collects the entries
    that pass the test, a line is printed for each of the others, and
    [users] is cleared and refilled from [active_users]. *)
Definition prune_pass (timeout now : Z) (s : state) : state :=
  let active_users := filter (active timeout now) (users s) in
  let pruned := filter (λ entry, ¬ active timeout now entry) (users s) in
  {| users := active_users;
     messages := messages s;
     stdout := stdout s ++ (pruned_line <$> map_to_list pruned) |}.

(** What a run of a Python function has produced so far. *)
Inductive run (A : Type) :=
  | Returned (a : A)
  | Looping.
Arguments Returned {A} a.
Arguments Looping {A}.

(** [while True:] of line 30, run over the successive readings of the
    clock.  The body has neither [return] nor [break]: when the readings
    are used up the thread is still in the loop. *)
Fixpoint prune_users_loop (timeout : Z) (clock : list Z) (s : state) : run Z * state :=
  match clock with
  | [] => (Looping, s)
  | now :: clock' => prune_users_loop timeout clock' (prune_pass timeout now s)
  end.

Definition prune_users : list Z → state → run Z * state :=
  prune_users_loop USER_TIMEOUT.

(** ** [login] (lines 55-72) *)

Definition login (name : option string) (uuid : string) (now : Z) (s : state)
  : response * state :=
  if negb (truthy name) then
    ((Status_error "Name is required", 400), s)
  else
    let name := default "" name in
    let user_id := uuid in
    let s1 := {| users := <[user_id := {| name := name; last_seen := now |}]> (users s);
                 messages := messages s;
                 stdout := stdout s |} in
    let s2 := print ("[Server] User logged in: " +:+ name +:+ " as " +:+ user_id) s1 in
    ((Status_ok_login user_id name, 200), s2).

(** ** [heartbeat] (lines 74-86) *)

Definition set_last_seen (now : Z) (info : user_info) : user_info :=
  {| name := name info; last_seen := now |}.

Definition heartbeat (user_id : option string) (now : Z) (s : state)
  : response * state :=
  if truthy user_id && bool_decide (is_Some (users s !! default "" user_id)) then
    let user_id := default "" user_id in
    ((Status_ok, 200),
     {| users := alter (set_last_seen now) user_id (users s);
        messages := messages s;
        stdout := stdout s |})
  else ((Status_error "User not found", 404), s).

(** ** [get_users] (lines 88-94) *)

Definition get_users (s : state) : response * state :=
  ((User_list ((λ entry : string * user_info, (entry.1, name entry.2)) <$> map_to_list (users s)),
    200), s).

(** ** [send_message] (lines 96-128) *)

(** [users.get(from_user_id, {}).get("name", "Unknown")] *)
Definition lookup_name (from_user_id : string) (s : state) : string :=
  match users s !! from_user_id with
  | Some info => name info
  | None => "Unknown"
  end.

(** [messages.append] *)
Definition append (entry : Message) (s : state) : state :=
  {| users := users s; messages := messages s ++ [entry]; stdout := stdout s |}.

(** Lines 100-118, up to [with messages_lock:].  Either the handler has
    answered already, or [msg_entry] is built, with its [msg_id] and its
    [timestamp]. *)
Definition send_message_build (from_user_id to_user_id message : option string)
    (uuid : string) (now : Z) (s : state) : (response * state) + Message :=
  if negb (all [truthy from_user_id; truthy to_user_id; truthy message]) then
    inl ((Status_error "Missing fields", 400), s)
  else
    let from_user_id := default "" from_user_id in
    let to_user_id := default "" to_user_id in
    let message := default "" message in
    let from_name := lookup_name from_user_id s in
    let msg_entry :=
      {| msg_id := uuid;
         from_name := from_name;
         from_user_id := from_user_id;
         to_user_id := to_user_id;
         type := "message";
         content := message;
         timestamp := now |} in
    inr msg_entry.

(** Lines 120-124: the append under [messages_lock], the print and the
    answer. *)
Definition send_message_commit (msg_entry : Message) (s : state) : response * state :=
  let s1 := append msg_entry s in
  let s2 := print ("Message from " +:+ from_name msg_entry +:+ " to "
                   +:+ to_user_id msg_entry +:+ ": " +:+ content msg_entry) s1 in
  ((Status_ok, 200), s2).

Definition send_message (from_user_id to_user_id message : option string)
    (uuid : string) (now : Z) (s : state) : response * state :=
  match send_message_build from_user_id to_user_id message uuid now s with
  | inl answered => answered
  | inr msg_entry => send_message_commit msg_entry s
  end.

(** ** [send_file] (lines 130-171) *)

(** An uploaded file, as far as the handler looks at it.  Its truth
    value is that of its [filename] (werkzeug's [FileStorage.__bool__]). *)
Record FileStorage := mkFileStorage {
  filename : string
}.

Definition truthy_file (file : FileStorage) : bool :=
  bool_decide (filename file ≠ "").

(** Lines 134-161, up to [with messages_lock:].  [file] is [None] when
    the form has no ['file'] part; [save_error] is [Some e] when
    [file.save] raised [e], which the [except] clause prints and
    reports. *)
Definition send_file_build (secure_filename : string → string)
    (file : option FileStorage) (from_user_id to_user_id : option string)
    (save_error : option string) (uuid : string) (now : Z) (s : state)
  : (response * state) + Message :=
  match file with
  | None => inl ((Status_error "No file part", 400), s)
  | Some file =>
      if negb (all [truthy_file file; truthy from_user_id; truthy to_user_id]) then
        inl ((Status_error "Missing fields", 400), s)
      else if bool_decide (filename file = "") then
        inl ((Status_error "No selected file", 400), s)
      else
        let from_user_id := default "" from_user_id in
        let to_user_id := default "" to_user_id in
        let filename := secure_filename (filename file) in
        match save_error with
        | Some e => inl ((Status_error e, 500), print ("[Send File Error] " +:+ e) s)
        | None =>
            let from_name := lookup_name from_user_id s in
            let file_msg :=
              {| msg_id := uuid;
                 from_name := from_name;
                 from_user_id := from_user_id;
                 to_user_id := to_user_id;
                 type := "file";
                 content := filename;
                 timestamp := now |} in
            inr file_msg
        end
  end.

(** Lines 163-167. *)
Definition send_file_commit (file_msg : Message) (s : state) : response * state :=
  let s1 := append file_msg s in
  let s2 := print ("File from " +:+ from_name file_msg +:+ " to "
                   +:+ to_user_id file_msg +:+ ": " +:+ content file_msg) s1 in
  ((Status_ok_file (content file_msg), 200), s2).

Definition send_file (secure_filename : string → string)
    (file : option FileStorage) (from_user_id to_user_id : option string)
    (save_error : option string) (uuid : string) (now : Z) (s : state)
  : response * state :=
  match send_file_build secure_filename file from_user_id to_user_id save_error uuid now s with
  | inl answered => answered
  | inr file_msg => send_file_commit file_msg s
  end.

(** ** [get_messages] (lines 173-189) *)

(** The test of line 186. *)
Definition relevant (user_id : string) (since_timestamp : Z) (msg : Message) : Prop :=
  timestamp msg > since_timestamp ∧ (to_user_id msg = user_id ∨ to_user_id msg = "all").

Global Instance relevant_dec user_id since msg : Decision (relevant user_id since msg).
Proof. unfold relevant. apply _. Defined.

(** [since] is the query parameter already parsed by [float] (a finite
    number); it defaults to 0. *)
Definition get_messages (user_id : option string) (since : option Z) (s : state)
  : response * state :=
  let since_timestamp := default 0 since in
  if negb (truthy user_id) then
    ((Status_error "User ID required", 400), s)
  else
    let user_id := default "" user_id in
    let relevant_messages := filter (relevant user_id since_timestamp) (messages s) in
    ((Message_list relevant_messages, 200), s).

(** ** The operations of the hub *)

(** The two handlers that append to the log. *)
Inductive send_request :=
  | Send_message (from_user_id to_user_id message : option string)
  | Send_file (file : option FileStorage) (from_user_id to_user_id : option string)
              (save_error : option string).

(** Every way the stores are read or written: the request handlers, and
    one pass of the pruning thread. *)
Inductive operation :=
  | Op_login (name : option string)
  | Op_heartbeat (user_id : option string)
  | Op_get_users
  | Op_send (req : send_request)
  | Op_get_messages (user_id : option string) (since : option Z)
  | Op_prune_pass (timeout : Z).

Section Hub.

Variable secure_filename : string → string.

Definition send_build (req : send_request) (uuid : string) (now : Z) (s : state)
  : (response * state) + Message :=
  match req with
  | Send_message from_user_id to_user_id message =>
      send_message_build from_user_id to_user_id message uuid now s
  | Send_file file from_user_id to_user_id save_error =>
      send_file_build secure_filename file from_user_id to_user_id save_error uuid now s
  end.

Definition send_commit (req : send_request) (entry : Message) (s : state)
  : response * state :=
  match req with
  | Send_message _ _ _ => send_message_commit entry s
  | Send_file _ _ _ _ => send_file_commit entry s
  end.

Definition send (req : send_request) (uuid : string) (now : Z) (s : state)
  : response * state :=
  match req with
  | Send_message from_user_id to_user_id message =>
      send_message from_user_id to_user_id message uuid now s
  | Send_file file from_user_id to_user_id save_error =>
      send_file secure_filename file from_user_id to_user_id save_error uuid now s
  end.

(** The state after an operation run alone, [uuid] and [now] being
    what [uuid.uuid4()] and [time.time()] give during it. *)
Definition perform (op : operation) (uuid : string) (now : Z) (s : state) : state :=
  match op with
  | Op_login name => (login name uuid now s).2
  | Op_heartbeat user_id => (heartbeat user_id now s).2
  | Op_get_users => (get_users s).2
  | Op_send req => (send req uuid now s).2
  | Op_get_messages user_id since => (get_messages user_id since s).2
  | Op_prune_pass timeout => prune_pass timeout now s
  end.

(** ** Concurrent sends

    Flask serves each request on a thread of its own.  A thread that
    handles a send runs in two steps, and other threads may run between
    the two: it builds its entry (reading the clock), then it takes
    [messages_lock] and appends.  [pending] holds, per thread, the
    entry built and not yet appended. *)
Record pool := Pool {
  shared : state;
  pending : gmap nat (send_request * Message)
}.

Inductive event :=
  | Ev_build (tid : nat) (req : send_request) (uuid : string) (now : Z)
  | Ev_commit (tid : nat).

(** One step of one thread; [None] when the thread cannot take it. *)
Definition step (e : event) (p : pool) : option pool :=
  match e with
  | Ev_build tid req uuid now =>
      match pending p !! tid with
      | Some _ => None
      | None =>
          match send_build req uuid now (shared p) with
          | inl answered => Some {| shared := answered.2; pending := pending p |}
          | inr entry =>
              Some {| shared := shared p; pending := <[tid := (req, entry)]> (pending p) |}
          end
      end
  | Ev_commit tid =>
      match pending p !! tid with
      | Some (req, entry) =>
          Some {| shared := (send_commit req entry (shared p)).2;
                  pending := delete tid (pending p) |}
      | None => None
      end
  end.

Fixpoint exec (trace : list event) (p : pool) : option pool :=
  match trace with
  | [] => Some p
  | e :: trace' =>
      match step e p with
      | Some p' => exec trace' p'
      | None => None
      end
  end.

(** The clock readings of a trace, in the order they are taken. *)
Definition readings (trace : list event) : list Z :=
  omap (λ e, match e with Ev_build _ _ _ now => Some now | Ev_commit _ => None end) trace.

(** Sends served one after the other, each running alone from its
    build to its commit; a request comes with the token and the clock
    reading it draws. *)
Definition serve (reqs : list (send_request * string * Z)) (s : state) : state :=
  foldl (λ s '(req, uuid, now), (send req uuid now s).2) s reqs.

End Hub.

(** * Properties *)

(** The log is in non-decreasing [timestamp] order. *)
Definition not_after (m1 m2 : Message) : Prop := timestamp m1 ≤ timestamp m2.

Global Instance not_after_dec m1 m2 : Decision (not_after m1 m2).
Proof. unfold not_after. apply _. Defined.

Definition sorted_by_timestamp (l : list Message) : Prop :=
  StronglySorted not_after l.

Global Instance sorted_by_timestamp_dec l : Decision (sorted_by_timestamp l).
Proof. unfold sorted_by_timestamp. apply _. Defined.

(** The messages a user sees when the cursor is left out of the test of
    line 186. *)
Definition visible (user_id : string) (msg : Message) : Prop :=
  to_user_id msg = user_id ∨ to_user_id msg = "all".

Global Instance visible_dec user_id msg : Decision (visible user_id msg).
Proof. unfold visible. apply _. Defined.

(** A cursor older than every message of the log. *)
Definition before_all (l : list Message) : Z :=
  foldr (λ msg t, Z.min (timestamp msg) t) 0 l - 1.

(** The registry holds no record under the empty id: ids are the tokens
    drawn by [uuid.uuid4()], which are not empty. *)
Definition registry_wf (s : state) : Prop := users s !! "" = None.

(** The spec's blank names: made of whitespace only. *)
Definition is_space (c : ascii) : bool :=
  bool_decide (c ∈ [" "; "009"; "010"; "011"; "012"; "013"]%char).

Fixpoint blank (name : string) : bool :=
  match name with
  | EmptyString => true
  | String c rest => is_space c && blank rest
  end.

(** ** Two sends that overlap

    Thread 1 builds its entry when the clock reads 1 and is preempted
    before it takes the lock; thread 2 builds its entry when the clock
    reads 2 and appends it; then thread 1 appends.  The clock never goes
    back. *)
Definition idle : pool := {| shared := initial_state; pending := ∅ |}.

Definition overlap (to1 to2 : string) : list event :=
  [ Ev_build 1 (Send_message (Some "a") (Some to1) (Some "hi")) "m1" 1;
    Ev_build 2 (Send_message (Some "a") (Some to2) (Some "hello")) "m2" 2;
    Ev_commit 2;
    Ev_commit 1 ].

(** ** Vocabulary of the further properties *)

(** A request field that [not] rejects: a missing key, or the empty
    string. *)
Definition missing (v : option string) : Prop := v = None ∨ v = Some "".

(** The number of appends taken along a trace. *)
Fixpoint commits (trace : list event) : nat :=
  match trace with
  | [] => 0%nat
  | Ev_commit _ :: trace' => S (commits trace')
  | Ev_build _ _ _ _ :: trace' => commits trace'
  end.

(** Operations served one after the other, each with the token and the
    clock reading it draws. *)
Definition perform_all (secure_filename : string → string)
    (ops : list (operation * string * Z)) (s : state) : state :=
  foldl (λ s '(op, uuid, now), perform secure_filename op uuid now s) s ops.

(** What the tests of lines 105 and 141 let into the log: an entry with
    a sender and a recipient, and with a text when it is a message. *)
Definition entry_valid (msg : Message) : Prop :=
  from_user_id msg ≠ "" ∧ to_user_id msg ≠ ""
  ∧ ((type msg = "message" ∧ content msg ≠ "") ∨ type msg = "file").

(** ** Frame lemmas: what each handler leaves alone *)

Lemma print_messages line s : messages (print line s) = messages s.
Proof. reflexivity. Qed.

Lemma print_users line s : users (print line s) = users s.
Proof. reflexivity. Qed.

Lemma login_messages name uuid now s : messages (login name uuid now s).2 = messages s.
Proof. unfold login. destruct (negb _); reflexivity. Qed.

Lemma heartbeat_messages user_id now s : messages (heartbeat user_id now s).2 = messages s.
Proof. unfold heartbeat. destruct (_ && _); reflexivity. Qed.

Lemma get_messages_state user_id since s : (get_messages user_id since s).2 = s.
Proof. unfold get_messages. destruct (negb _); reflexivity. Qed.

Lemma prune_pass_messages timeout now s : messages (prune_pass timeout now s) = messages s.
Proof. reflexivity. Qed.

Lemma prune_users_loop_messages timeout clock s :
  messages (prune_users_loop timeout clock s).2 = messages s.
Proof.
  revert s. induction clock as [|now clock IH]; intros s; simpl; [reflexivity|].
  rewrite IH. apply prune_pass_messages.
Qed.

(** A send handler that has answered before the lock left the log alone. *)
Lemma send_message_build_inl f t m uuid now s r s' :
  send_message_build f t m uuid now s = inl (r, s') → messages s' = messages s.
Proof.
  unfold send_message_build. destruct (negb _); [|discriminate].
  intros [= _ <-]. reflexivity.
Qed.

Lemma send_file_build_inl sf file f t err uuid now s r s' :
  send_file_build sf file f t err uuid now s = inl (r, s') → messages s' = messages s.
Proof.
  unfold send_file_build. destruct file as [file|]; [|by intros [= _ <-]].
  destruct (negb _); [by intros [= _ <-]|].
  case_bool_decide; [by intros [= _ <-]|].
  destruct err; [by intros [= _ <-]|discriminate].
Qed.

Lemma send_build_inl sf req uuid now s r s' :
  send_build sf req uuid now s = inl (r, s') → messages s' = messages s.
Proof.
  destruct req; simpl; eauto using send_message_build_inl, send_file_build_inl.
Qed.

Lemma send_commit_messages req entry s :
  messages (send_commit req entry s).2 = messages s ++ [entry].
Proof. destruct req; reflexivity. Qed.

(** Run alone, a send is its build followed by its commit. *)
Lemma send_unfold sf req uuid now s :
  send sf req uuid now s =
    match send_build sf req uuid now s with
    | inl answered => answered
    | inr entry => send_commit req entry s
    end.
Proof. destruct req; reflexivity. Qed.

(** The timestamp of a built entry is the clock reading of its build. *)
Lemma send_build_timestamp sf req uuid now s entry :
  send_build sf req uuid now s = inr entry → timestamp entry = now ∧ msg_id entry = uuid.
Proof.
  destruct req as [f t m|file f t err]; simpl.
  - unfold send_message_build. destruct (negb _); [discriminate|].
    intros [= <-]. done.
  - unfold send_file_build. destruct file as [file|]; [|discriminate].
    destruct (negb _); [discriminate|]. case_bool_decide; [discriminate|].
    destruct err; [discriminate|]. intros [= <-]. done.
Qed.

(** A send appends at most one entry, stamped with [now]. *)
Lemma send_messages sf req uuid now s :
  messages (send sf req uuid now s).2 = messages s ∨
  ∃ entry, timestamp entry = now ∧
           messages (send sf req uuid now s).2 = messages s ++ [entry].
Proof.
  rewrite send_unfold.
  destruct (send_build sf req uuid now s) as [[r s']|entry] eqn:Hb.
  - left. eauto using send_build_inl.
  - right. exists entry. split; [by eapply send_build_timestamp|].
    apply send_commit_messages.
Qed.

(** ** C9 *)

(** C9.  [get_messages] is read-only: whatever the recipient and the
    cursor, the state after the call (the log, the registry, and the
    printed lines) is the state before it. *)
Theorem get_messages_read_only (user_id : option string) (since : option Z) (s : state) :
  (get_messages user_id since s).2 = s
  ∧ messages (get_messages user_id since s).2 = messages s
  ∧ users (get_messages user_id since s).2 = users s.
Proof. rewrite get_messages_state. done. Qed.

(** ** C7 *)

(** C7.  A pruning pass never touches the log: for every timeout and
    clock reading [messages] is the same list before and after it (and
    after any number of passes), so [get_messages] answers every
    recipient and cursor as it did before the pass. *)
Theorem prune_pass_preserves_messages (timeout now : Z) (s : state) :
  messages (prune_pass timeout now s) = messages s
  ∧ (∀ clock, messages (prune_users_loop timeout clock s).2 = messages s)
  ∧ (∀ user_id since,
       (get_messages user_id since (prune_pass timeout now s)).1
       = (get_messages user_id since s).1).
Proof.
  split; [reflexivity|]. split; [intros; apply prune_users_loop_messages|].
  intros user_id since. unfold get_messages.
  rewrite prune_pass_messages. destruct (negb _); reflexivity.
Qed.

(** ** C6 *)

(** C6.  The log only grows at its end: for every operation (login,
    heartbeat, roster, the two sends, [get_messages], a pruning pass)
    the log before it is a prefix of the log after it, so every entry
    already stored stays at its index with all its fields. *)
Theorem messages_append_only (secure_filename : string → string)
    (op : operation) (uuid : string) (now : Z) (s : state) :
  messages s `prefix_of` messages (perform secure_filename op uuid now s)
  ∧ ∀ (i : nat) (msg : Message),
      messages s !! i = Some msg →
      messages (perform secure_filename op uuid now s) !! i = Some msg.
Proof.
  assert (messages s `prefix_of` messages (perform secure_filename op uuid now s)) as Hp.
  { destruct op as [n|uid| |req|uid since|timeout]; simpl.
    - by rewrite login_messages.
    - by rewrite heartbeat_messages.
    - done.
    - destruct (send_messages secure_filename req uuid now s) as [->|(entry & _ & ->)];
        [done|by apply prefix_app_r].
    - by rewrite get_messages_state.
    - done. }
  split; [exact Hp|]. intros i msg Hi.
  destruct Hp as [k ->]. by apply lookup_app_l_Some.
Qed.

(** ** The pruning pass *)

Lemma prune_pass_lookup_Some timeout now s user_id info :
  users (prune_pass timeout now s) !! user_id = Some info
  ↔ users s !! user_id = Some info ∧ now - last_seen info < timeout.
Proof. simpl. apply map_lookup_filter_Some. Qed.

(** The users kept by a pass all pass the test of line 37 again. *)
Lemma prune_pass_all_active timeout now s :
  ∀ user_id info,
    users (prune_pass timeout now s) !! user_id = Some info →
    active timeout now (user_id, info).
Proof. intros user_id info H. by apply prune_pass_lookup_Some in H as [_ H]. Qed.

Lemma prune_pass_none_stale timeout now s :
  filter (λ entry, ¬ active timeout now entry) (users (prune_pass timeout now s)) = ∅.
Proof.
  apply map_empty. intros user_id. apply map_lookup_filter_None. right.
  intros info Hin Hstale. apply Hstale. by apply prune_pass_all_active with s.
Qed.

(** Kept and pruned users make up the registry. *)
Lemma prune_pass_size timeout now s :
  (size (filter (λ entry, ¬ active timeout now entry) (users s))
   + size (users (prune_pass timeout now s)))%nat = size (users s).
Proof.
  simpl. rewrite Nat.add_comm, <- map_size_disj_union
    by apply map_disjoint_filter_complement.
  by rewrite map_filter_union_complement.
Qed.

Lemma prune_users_loop_looping timeout clock s :
  (prune_users_loop timeout clock s).1 = Looping.
Proof. revert s. induction clock as [|now clock IH]; intros s; simpl; eauto. Qed.

(** ** C8 *)

(** C8.  Pruning is idempotent: a second pass at the same clock reading
    and timeout, with nothing in between, finds no user to prune; it
    leaves the registry (and the whole state, as it prints nothing) as
    the first pass left it. *)
Theorem prune_pass_idempotent (timeout now : Z) (s : state) :
  prune_pass timeout now (prune_pass timeout now s) = prune_pass timeout now s
  ∧ users (prune_pass timeout now (prune_pass timeout now s))
    = users (prune_pass timeout now s).
Proof.
  assert (prune_pass timeout now (prune_pass timeout now s)
          = prune_pass timeout now s) as Heq; [|by rewrite Heq].
  unfold prune_pass at 1.
  rewrite prune_pass_none_stale, map_to_list_empty, fmap_nil, app_nil_r.
  rewrite (map_filter_id _ (users (prune_pass timeout now s)))
    by apply prune_pass_all_active.
  by destruct (prune_pass timeout now s).
Qed.

(** ** C2 *)

(** C2, counterexample.  Alice logs in at time 0 and is pruned by the
    pass at time 31: one identity is evicted, and the thread hands no
    count back, it is still in its loop. *)
Lemma prune_users_returns_no_count :
  let s := (login (Some "Alice") "A" 0 initial_state).2 in
  let after := prune_users [31] s in
  users s !! "A" = Some {| name := "Alice"; last_seen := 0 |}
  ∧ users after.2 = ∅
  ∧ after.1 ≠ Returned 1
  ∧ after.1 = Looping.
Proof. vm_compute. repeat split; congruence. Qed.

(** C2, as the code has it.  For every clock reading and timeout, a pruning pass
    keeps exactly the users with [now - last_seen < timeout], each with
    its record as it was, and removes exactly those with
    [now - last_seen >= timeout]; it prints one line per removed user
    and returns nothing: [prune_users] never leaves its loop. *)
Theorem prune_pass_spec (timeout now : Z) (s : state) :
  (∀ user_id info,
     users (prune_pass timeout now s) !! user_id = Some info
     ↔ users s !! user_id = Some info ∧ ¬ (now - last_seen info >= timeout))
  ∧ (∀ user_id,
       users (prune_pass timeout now s) !! user_id = None
       ↔ users s !! user_id = None
         ∨ ∃ info, users s !! user_id = Some info ∧ now - last_seen info >= timeout)
  ∧ (∃ lines,
       stdout (prune_pass timeout now s) = stdout s ++ lines
       ∧ (length lines + size (users (prune_pass timeout now s)))%nat = size (users s))
  ∧ (∀ clock, (prune_users_loop timeout clock s).1 = Looping).
Proof.
  assert (∀ user_id info,
     users (prune_pass timeout now s) !! user_id = Some info
     ↔ users s !! user_id = Some info ∧ ¬ (now - last_seen info >= timeout)) as Hkept.
  { intros user_id info. rewrite prune_pass_lookup_Some.
    split; (intros [? ?]; split; [done|lia]). }
  split; [exact Hkept|]. split; [|split].
  - intros user_id. split.
    + intros Hnone. destruct (users s !! user_id) as [info|] eqn:Hin; [|by left].
      right. exists info. split; [done|].
      destruct (decide (now - last_seen info >= timeout)) as [|Hlt]; [done|].
      assert (users (prune_pass timeout now s) !! user_id = Some info) as Hsome
        by (apply Hkept; by rewrite Hin).
      congruence.
    + intros [Hnone|(info & Hin & Hstale)].
      * apply eq_None_not_Some. intros [info Hsome].
        apply Hkept in Hsome as [Hsome _]. congruence.
      * apply eq_None_not_Some. intros [info' Hsome].
        apply Hkept in Hsome as [Hsome Hfresh].
        rewrite Hin in Hsome. injection Hsome as <-. done.
  - eexists. split; [reflexivity|].
    rewrite length_fmap, length_map_to_list. apply prune_pass_size.
  - intros clock. apply prune_users_loop_looping.
Qed.

(** ** The registry invariant *)

(** Every operation keeps the empty id out of the registry, the token
    drawn by [uuid.uuid4()] being non-empty. *)
Lemma registry_wf_perform sf op uuid now s :
  uuid ≠ "" → registry_wf s → registry_wf (perform sf op uuid now s).
Proof.
  unfold registry_wf. intros Huuid Hwf.
  destruct op as [n|uid| |req|uid since|timeout]; simpl.
  - unfold login. destruct (negb _); [done|].
    simpl. by rewrite lookup_insert_ne.
  - unfold heartbeat. destruct (_ && _); [|done]. simpl.
    rewrite lookup_alter. case_decide as Huid; [|done]. by rewrite Huid, Hwf.
  - done.
  - rewrite send_unfold.
    destruct (send_build sf req uuid now s) as [[r s']|entry] eqn:Hb.
    + destruct req as [f t m|file f t err]; simpl in Hb.
      * unfold send_message_build in Hb. destruct (negb _); [|done].
        by injection Hb as _ <-.
      * unfold send_file_build in Hb. destruct file as [file|]; [|by injection Hb as _ <-].
        destruct (negb _); [by injection Hb as _ <-|].
        case_bool_decide; [by injection Hb as _ <-|].
        destruct err; [by injection Hb as _ <-|done].
    + by destruct req.
  - by rewrite get_messages_state.
  - apply map_lookup_filter_None. by left.
Qed.

Lemma registry_wf_initial : registry_wf initial_state.
Proof. reflexivity. Qed.

(** ** C4 *)

(** C4, counterexample.  Alice logs in when the clock reads 0 and sends
    a heartbeat while it still reads 0: the heartbeat is answered ok,
    and [last_seen] is 0 after it as it was before.  It has not
    strictly advanced. *)
Lemma heartbeat_same_reading_no_advance :
  let s := (login (Some "Alice") "A" 0 initial_state).2 in
  ∃ before after,
    users s !! "A" = Some before
    ∧ (heartbeat (Some "A") 0 s).1 = (Status_ok, 200)
    ∧ users (heartbeat (Some "A") 0 s).2 !! "A" = Some after
    ∧ last_seen after = last_seen before
    ∧ ¬ last_seen before < last_seen after.
Proof.
  exists {| name := "Alice"; last_seen := 0 |}, {| name := "Alice"; last_seen := 0 |}.
  split; [reflexivity|]. split; [reflexivity|]. split; [reflexivity|].
  split; [reflexivity|]. simpl. lia.
Qed.

(** C4, as the code has it.  In a registry of generated ids,
    [heartbeat] on an id that is present answers ok and overwrites that
    user's [last_seen] with [now], whatever it was, leaving its name and
    every other user alone: [last_seen] strictly advances exactly when
    the clock reading is later than the one stored.  It answers 404
    exactly when the id is absent, and then the state is unchanged. *)
Theorem heartbeat_spec (user_id : string) (now : Z) (s : state)
    (Hwf : registry_wf s) :
  (∀ info, users s !! user_id = Some info →
     (heartbeat (Some user_id) now s).1 = (Status_ok, 200)
     ∧ (∃ info', users (heartbeat (Some user_id) now s).2 !! user_id = Some info'
                 ∧ last_seen info' = now
                 ∧ name info' = name info
                 ∧ (last_seen info < last_seen info' ↔ last_seen info < now))
     ∧ (∀ other, other ≠ user_id →
          users (heartbeat (Some user_id) now s).2 !! other = users s !! other)
     ∧ messages (heartbeat (Some user_id) now s).2 = messages s)
  ∧ (NotFound (heartbeat (Some user_id) now s).1 ↔ users s !! user_id = None)
  ∧ (users s !! user_id = None → (heartbeat (Some user_id) now s).2 = s).
Proof.
  unfold heartbeat, NotFound, truthy. simpl.
  destruct (users s !! user_id) as [info|] eqn:Hin.
  - assert (user_id ≠ "") as Hne by (intros ->; unfold registry_wf in Hwf; congruence).
    rewrite (bool_decide_eq_true_2 _ Hne).
    rewrite (bool_decide_eq_true_2 (is_Some (Some info))) by eauto. simpl.
    split; [|split; [split; [lia|done]|done]].
    intros ? [= <-]. split; [done|]. split; [|split; [|done]].
    + exists (set_last_seen now info).
      rewrite lookup_alter, decide_True, Hin by done. simpl.
      repeat split; auto.
    + intros other Hother. by rewrite lookup_alter_ne.
  - rewrite (bool_decide_eq_false_2 (is_Some None)) by (by intros [? ?]).
    rewrite andb_false_r. simpl. done.
Qed.

Lemma heartbeat_spec_witness :
  let s := (login (Some "Alice") "A" 0 initial_state).2 in
  (heartbeat (Some "A") 7 s).1 = (Status_ok, 200)
  ∧ (NotFound (heartbeat (Some "A") 7 s).1 ↔ users s !! "A" = None).
Proof.
  intros s.
  assert (registry_wf s) as Hwf by reflexivity.
  destruct (heartbeat_spec "A" 7 s Hwf) as (Hok & Hnf & _).
  split; [|exact Hnf].
  apply (Hok {| name := "Alice"; last_seen := 0 |}). reflexivity.
Defined.

(** ** C3 *)

(** C3, counterexample.  A name of two spaces is blank, and [login]
    accepts it: it answers 200 and stores the user. *)
Lemma login_accepts_blank_name :
  let out := login (Some "  ") "A" 0 initial_state in
  blank "  " = true
  ∧ ¬ InvalidInput out.1
  ∧ out.1 = (Status_ok_login "A" "  ", 200)
  ∧ users out.2 !! "A" = Some {| name := "  "; last_seen := 0 |}.
Proof. vm_compute. repeat split; congruence. Qed.

(** C3, as the code has it.  [login] answers 400 if and only if the name is missing
    or empty; a whitespace-only name is accepted like any other.  On
    success it stores [{name, last_seen = now}] under the drawn id,
    every other id keeping its record, and answers with the id and the
    name (not [last_seen]).  When the drawn id is not yet in the
    registry the registry grows by one user. *)
Theorem login_spec (name : option string) (uuid : string) (now : Z) (s : state) :
  (InvalidInput (login name uuid now s).1 ↔ name = None ∨ name = Some "")
  ∧ (InvalidInput (login name uuid now s).1 → (login name uuid now s).2 = s)
  ∧ (∀ n, name = Some n → n ≠ "" →
       (login name uuid now s).1 = (Status_ok_login uuid n, 200)
       ∧ users (login name uuid now s).2 !! uuid = Some {| name := n; last_seen := now |}
       ∧ (∀ other, other ≠ uuid →
            users (login name uuid now s).2 !! other = users s !! other)
       ∧ (users s !! uuid = None →
            size (users (login name uuid now s).2) = S (size (users s)))).
Proof.
  unfold login, InvalidInput, truthy. destruct name as [n|].
  - case_bool_decide as Hn; simpl.
    + split; [split; [lia|intros [?|[= ->]]; done]|]. split; [lia|].
      intros ? [= <-] _. split; [done|]. split; [by rewrite lookup_insert_eq|].
      split.
      * intros other Hother. by rewrite lookup_insert_ne.
      * intros Hfresh. by apply map_size_insert_None.
    + subst n.
      split; [split; [by right|done]|]. split; [done|]. intros ? [= <-] ?. done.
  - simpl. split; [split; [by left|done]|]. split; [done|]. intros ? [=].
Qed.

Lemma login_spec_witness :
  (login (Some "Alice") "A" 0 initial_state).1 = (Status_ok_login "A" "Alice", 200)
  ∧ size (users (login (Some "Alice") "A" 0 initial_state).2) = 1%nat.
Proof.
  destruct (login_spec (Some "Alice") "A" 0 initial_state) as (_ & _ & Hok).
  destruct (Hok "Alice" eq_refl ltac:(discriminate)) as (Hresp & _ & _ & Hsize).
  split; [exact Hresp|]. exact (Hsize eq_refl).
Defined.

(** ** Order of the log and of the answers *)

Lemma sorted_by_timestamp_sublist l1 l2 :
  l1 `sublist_of` l2 → sorted_by_timestamp l2 → sorted_by_timestamp l1.
Proof.
  unfold sorted_by_timestamp.
  induction 1 as [|msg l1 l2 Hsub IH|msg l1 l2 Hsub IH]; intros Hsorted.
  - constructor.
  - apply StronglySorted_inv in Hsorted as [Hsorted Hhead].
    constructor; [by apply IH|].
    rewrite Forall_forall in *. intros m Hm.
    apply Hhead. by eapply elem_of_sublist.
  - apply StronglySorted_inv in Hsorted as [Hsorted _]. by apply IH.
Qed.

(** Appending an entry stamped no earlier than the log keeps it sorted. *)
Lemma sorted_by_timestamp_snoc l entry :
  sorted_by_timestamp l →
  Forall (λ msg, timestamp msg ≤ timestamp entry) l →
  sorted_by_timestamp (l ++ [entry]).
Proof.
  unfold sorted_by_timestamp. intros Hsorted Hle.
  apply StronglySorted_app_2; [|done|repeat constructor].
  intros m1 m2 Hm1 ->%list_elem_of_singleton.
  rewrite Forall_forall in Hle. by apply Hle.
Qed.

Lemma filter_ext_elem_of {A} (P Q : A → Prop)
    `{!∀ x, Decision (P x), !∀ x, Decision (Q x)} (l : list A) :
  (∀ x, x ∈ l → P x ↔ Q x) → filter P l = filter Q l.
Proof.
  induction l as [|x l IH]; intros Hext; [done|].
  rewrite !filter_cons.
  assert (P x ↔ Q x) as Hx by (apply Hext; left).
  rewrite IH by (intros y Hy; apply Hext; by right).
  destruct (decide (P x)), (decide (Q x)); tauto.
Qed.

Lemma before_all_lt l msg : msg ∈ l → before_all l < timestamp msg.
Proof.
  unfold before_all. induction l as [|m l IH]; [by intros ?%elem_of_nil|].
  intros [->|Hin]%elem_of_cons; simpl; [lia|].
  specialize (IH Hin). lia.
Qed.

(** With a cursor older than the whole log the test of line 186 only
    looks at the recipient. *)
Lemma filter_relevant_before_all user_id l :
  filter (relevant user_id (before_all l)) l = filter (visible user_id) l.
Proof.
  apply filter_ext_elem_of. intros msg Hin. unfold relevant, visible.
  pose proof (before_all_lt l msg Hin). intuition lia.
Qed.

Lemma filter_relevant_visible user_id since l :
  filter (relevant user_id since) l `sublist_of` filter (visible user_id) l.
Proof.
  replace (filter (relevant user_id since) l)
    with (filter (λ msg, timestamp msg > since) (filter (visible user_id) l)).
  - apply sublist_filter.
  - rewrite list_filter_filter. apply list_filter_iff.
    intros msg. unfold relevant, visible. tauto.
Qed.

(** What [get_messages] computes for a recipient that is not empty. *)
Lemma get_messages_unfold user_id since s :
  user_id ≠ "" →
  get_messages (Some user_id) since s
  = ((Message_list (filter (relevant user_id (default 0 since)) (messages s)), 200), s).
Proof.
  intros Hid. unfold get_messages, truthy.
  by rewrite bool_decide_eq_true_2.
Qed.

(** What a well-formed [send_message] does. *)
Lemma send_message_unfold from_user_id to_user_id text uuid now s :
  from_user_id ≠ "" → to_user_id ≠ "" → text ≠ "" →
  messages (send_message (Some from_user_id) (Some to_user_id) (Some text) uuid now s).2
  = messages s ++ [ {| msg_id := uuid;
                       from_name := lookup_name from_user_id s;
                       from_user_id := from_user_id;
                       to_user_id := to_user_id;
                       type := "message";
                       content := text;
                       timestamp := now |} ].
Proof.
  intros Hf Ht Hm. unfold send_message, send_message_build, all, truthy. simpl.
  by rewrite !bool_decide_eq_true_2.
Qed.

(** ** C1 *)

(** C1, counterexample.  Two overlapping sends, to "b" and to everyone,
    under a clock that never goes back: the entry stamped 2 is stored
    before the entry stamped 1, and the answer to "b" with cursor 0
    lists them in that order. *)
Lemma get_messages_answer_not_sorted :
  StronglySorted Z.le (readings (overlap "b" "all"))
  ∧ ∃ p l,
      exec id (overlap "b" "all") idle = Some p
      ∧ (get_messages (Some "b") (Some 0) (shared p)).1 = (Message_list l, 200)
      ∧ timestamp <$> l = [2; 1]
      ∧ ¬ sorted_by_timestamp l.
Proof.
  split; [apply (bool_decide_unpack _); by vm_compute|].
  eexists _, _. split; [vm_compute; reflexivity|].
  split; [vm_compute; reflexivity|]. split; [reflexivity|].
  apply (bool_decide_eq_false_1 _). by vm_compute.
Qed.

(** C1, as the code has it.  For every state, every non-empty recipient and every
    cursor, [get_messages] answers with exactly the entries of the log
    such that [timestamp > since] and [to_user_id] is the recipient or
    "all", in the order of the log (no sorting is done): the answer is
    in non-decreasing timestamp order whenever the log is.  An empty
    recipient is refused with 400.  In particular, starting from an
    empty log, after a message from A to B and then a message from A to
    "all", both stamped after 0, B with cursor 0 gets both in insertion
    order and A gets only the second. *)
Theorem get_messages_spec :
  (∀ (user_id : string) (since : Z) (s : state),
     user_id ≠ "" →
     ∃ l, get_messages (Some user_id) (Some since) s = ((Message_list l, 200), s)
          ∧ l = filter (relevant user_id since) (messages s)
          ∧ (∀ msg, msg ∈ l ↔
                    msg ∈ messages s ∧ timestamp msg > since
                    ∧ (to_user_id msg = user_id ∨ to_user_id msg = "all"))
          ∧ l `sublist_of` messages s
          ∧ (sorted_by_timestamp (messages s) → sorted_by_timestamp l))
  ∧ (∀ since s, InvalidInput (get_messages (Some "") since s).1)
  ∧ (∀ (A B text1 text2 uuid1 uuid2 : string) (now1 now2 : Z) (s : state),
       messages s = [] →
       A ≠ "" → B ≠ "" → A ≠ B → B ≠ "all" → text1 ≠ "" → text2 ≠ "" →
       0 < now1 → 0 < now2 →
       let s1 := (send_message (Some A) (Some B) (Some text1) uuid1 now1 s).2 in
       let s2 := (send_message (Some A) (Some "all") (Some text2) uuid2 now2 s1).2 in
       ∃ m1 m2,
         messages s2 = [m1; m2]
         ∧ (to_user_id m1 = B ∧ content m1 = text1 ∧ timestamp m1 = now1)
         ∧ (to_user_id m2 = "all" ∧ content m2 = text2 ∧ timestamp m2 = now2)
         ∧ (get_messages (Some B) (Some 0) s2).1 = (Message_list [m1; m2], 200)
         ∧ (get_messages (Some A) (Some 0) s2).1 = (Message_list [m2], 200)).
Proof.
  split; [|split].
  - intros user_id since s Hid. eexists. split; [by apply get_messages_unfold|].
    simpl. split; [done|]. split; [|split].
    + intros msg. rewrite list_elem_of_filter. unfold relevant. tauto.
    + apply sublist_filter.
    + apply sorted_by_timestamp_sublist, sublist_filter.
  - intros since s. reflexivity.
  - intros A B text1 text2 uuid1 uuid2 now1 now2 s Hlog HA HB HAB Hall Ht1 Ht2 H1 H2 s1 s2.
    assert (messages s1 = [ {| msg_id := uuid1; from_name := lookup_name A s;
                               from_user_id := A; to_user_id := B; type := "message";
                               content := text1; timestamp := now1 |} ]) as Hs1.
    { unfold s1. rewrite send_message_unfold by done. by rewrite Hlog. }
    eexists _, _. split.
    { unfold s2. rewrite send_message_unfold by done. rewrite Hs1. reflexivity. }
    assert (messages s2 = messages s1 ++
              [ {| msg_id := uuid2; from_name := lookup_name A s1;
                   from_user_id := A; to_user_id := "all"; type := "message";
                   content := text2; timestamp := now2 |} ]) as Hs2
      by (unfold s2; by rewrite send_message_unfold).
    split; [done|]. split; [done|].
    rewrite !get_messages_unfold by done. rewrite Hs2, Hs1. simpl.
    rewrite !filter_cons, !filter_nil. unfold relevant. simpl.
    split.
    + rewrite !decide_True by (split; [lia|auto]). done.
    + rewrite decide_False by (intros [_ [?|?]]; congruence).
      rewrite decide_True by (split; [lia|auto]). done.
Qed.

Lemma get_messages_spec_witness :
  let s1 := (send_message (Some "A") (Some "B") (Some "hi") "m1" 5 initial_state).2 in
  let s2 := (send_message (Some "A") (Some "all") (Some "hello all") "m2" 6 s1).2 in
  ∃ m1 m2,
    messages s2 = [m1; m2]
    ∧ (to_user_id m1 = "B" ∧ content m1 = "hi" ∧ timestamp m1 = 5)
    ∧ (to_user_id m2 = "all" ∧ content m2 = "hello all" ∧ timestamp m2 = 6)
    ∧ (get_messages (Some "B") (Some 0) s2).1 = (Message_list [m1; m2], 200)
    ∧ (get_messages (Some "A") (Some 0) s2).1 = (Message_list [m2], 200).
Proof.
  apply (proj2 (proj2 get_messages_spec)
           "A" "B" "hi" "hello all" "m1" "m2" 5 6 initial_state);
    try reflexivity; discriminate.
Defined.

(** ** C10 *)

(** C10, counterexample.  Two overlapping sends, to "b" and to "c": the
    log holds the entry stamped 2 before the entry stamped 1, so it is
    not sorted; yet no answer of [get_messages] holds both entries, and
    every answer is sorted. *)
Lemma sorted_answers_of_unsorted_log :
  ∃ p,
    exec id (overlap "b" "c") idle = Some p
    ∧ ¬ sorted_by_timestamp (messages (shared p))
    ∧ ∀ user_id since l,
        (get_messages user_id since (shared p)).1 = (Message_list l, 200) →
        sorted_by_timestamp l.
Proof.
  eexists. split; [vm_compute; reflexivity|]. split.
  - apply (bool_decide_eq_false_1 _). by vm_compute.
  - intros user_id since l. unfold get_messages.
    destruct (negb (truthy user_id)); [discriminate|].
    intros [= <-]. simpl. rewrite !filter_cons, filter_nil.
    unfold sorted_by_timestamp, relevant. simpl.
    repeat case_decide; try (repeat constructor; done).
    exfalso. intuition congruence.
Qed.

(** C10, as the code has it.  The answer of [get_messages] is a subsequence of the
    log, in the order of the log: nothing is sorted.  So the answer is
    in non-decreasing timestamp order whenever the log is; and the
    answers to a recipient are sorted for every cursor exactly when the
    part of the log visible to that recipient (sent to it or to "all")
    is sorted, whatever the order of the entries it does not see. *)
Theorem get_messages_order (user_id : string) (s : state) (Hid : user_id ≠ "") :
  (∀ since, ∃ l,
     (get_messages (Some user_id) since s).1 = (Message_list l, 200)
     ∧ l `sublist_of` messages s
     ∧ (sorted_by_timestamp (messages s) → sorted_by_timestamp l))
  ∧ ((∀ since l,
        (get_messages (Some user_id) since s).1 = (Message_list l, 200) →
        sorted_by_timestamp l)
     ↔ sorted_by_timestamp (filter (visible user_id) (messages s))).
Proof.
  split.
  - intros since. eexists. rewrite get_messages_unfold by done.
    split; [reflexivity|]. split; [apply sublist_filter|].
    apply sorted_by_timestamp_sublist, sublist_filter.
  - split.
    + intros Hall. rewrite <- filter_relevant_before_all.
      apply (Hall (Some (before_all (messages s)))).
      by rewrite get_messages_unfold.
    + intros Hvisible since l. rewrite get_messages_unfold by done.
      intros [= <-]. revert Hvisible.
      apply sorted_by_timestamp_sublist, filter_relevant_visible.
Qed.

Lemma get_messages_order_witness :
  let s1 := (send_message (Some "A") (Some "B") (Some "hi") "m1" 5 initial_state).2 in
  let s2 := (send_message (Some "A") (Some "all") (Some "hello all") "m2" 6 s1).2 in
  (∀ since l,
     (get_messages (Some "B") since s2).1 = (Message_list l, 200) →
     sorted_by_timestamp l)
  ↔ sorted_by_timestamp (filter (visible "B") (messages s2)).
Proof.
  intros s1 s2.
  exact (proj2 (get_messages_order "B" s2 ltac:(discriminate))).
Defined.

(** ** C5 *)

Lemma serve_sorted sf reqs s :
  sorted_by_timestamp (messages s) →
  StronglySorted Z.le reqs.*2 →
  (∀ msg now, msg ∈ messages s → now ∈ reqs.*2 → timestamp msg ≤ now) →
  sorted_by_timestamp (messages (serve sf reqs s)).
Proof.
  revert s. induction reqs as [|[[req uuid] now] reqs IH]; intros s Hsorted Hclock Hlog;
    [done|].
  simpl in *. apply StronglySorted_inv in Hclock as [Hclock Hnow].
  rewrite Forall_forall in Hnow.
  destruct (send_messages sf req uuid now s) as [Heq|(entry & Hstamp & Heq)];
    apply IH; rewrite ?Heq; try done.
  - intros msg now' Hmsg Hnow'. apply Hlog; [done|by right].
  - apply sorted_by_timestamp_snoc; [done|].
    apply Forall_forall. intros msg Hmsg. rewrite Hstamp. apply Hlog; [done|by left].
  - intros msg now' [Hmsg| ->%list_elem_of_singleton]%elem_of_app Hnow'.
    + apply Hlog; [done|by right].
    + rewrite Hstamp. by apply Hnow.
Qed.

(** C5, counterexample.  Two sends overlap under a clock that never
    goes back, from the empty log: when both threads are done the entry
    stamped 2 is stored before the entry stamped 1. *)
Lemma overlapping_sends_out_of_order :
  StronglySorted Z.le (readings (overlap "b" "all"))
  ∧ ∃ p,
      exec id (overlap "b" "all") idle = Some p
      ∧ pending p = ∅
      ∧ timestamp <$> messages (shared p) = [2; 1]
      ∧ ¬ sorted_by_timestamp (messages (shared p)).
Proof.
  split; [apply (bool_decide_unpack _); by vm_compute|].
  eexists. split; [vm_compute; reflexivity|].
  split; [reflexivity|]. split; [reflexivity|].
  apply (bool_decide_eq_false_1 _). by vm_compute.
Qed.

(** C5, as the code has it.  Only the insertion runs under the lock.  A send draws
    the id and the timestamp of its entry when it builds it, before it
    takes the lock, and the log is untouched by that step; the commit
    then appends the entry as it was built, in one step.  A send whose
    two steps follow each other with nothing in between is the handler
    run alone; and sends that run alone one after the other, under clock
    readings that never go back and are not before the log, keep the log
    sorted by timestamp. *)
Theorem send_assigns_before_lock (secure_filename : string → string) :
  (∀ tid req uuid now p p',
     step secure_filename (Ev_build tid req uuid now) p = Some p' →
     messages (shared p') = messages (shared p)
     ∧ ∀ req' entry, pending p' !! tid = Some (req', entry) →
                     timestamp entry = now ∧ msg_id entry = uuid)
  ∧ (∀ tid p p',
       step secure_filename (Ev_commit tid) p = Some p' →
       ∃ req entry,
         pending p !! tid = Some (req, entry)
         ∧ messages (shared p') = messages (shared p) ++ [entry]
         ∧ pending p' = delete tid (pending p))
  ∧ (∀ tid req uuid now p entry,
       pending p !! tid = None →
       send_build secure_filename req uuid now (shared p) = inr entry →
       exec secure_filename [Ev_build tid req uuid now; Ev_commit tid] p
       = Some {| shared := (send secure_filename req uuid now (shared p)).2;
                 pending := pending p |})
  ∧ (∀ reqs s,
       sorted_by_timestamp (messages s) →
       StronglySorted Z.le reqs.*2 →
       (∀ msg now, msg ∈ messages s → now ∈ reqs.*2 → timestamp msg ≤ now) →
       sorted_by_timestamp (messages (serve secure_filename reqs s))).
Proof.
  split; [|split; [|split]].
  - intros tid req uuid now p p'. simpl.
    destruct (pending p !! tid) eqn:Hfree; [discriminate|].
    destruct (send_build secure_filename req uuid now (shared p))
      as [[r s']|entry] eqn:Hbuild; intros [= <-]; simpl.
    + split; [by eapply send_build_inl|]. intros req' entry. by rewrite Hfree.
    + split; [done|]. intros req' entry'. rewrite lookup_insert_eq.
      intros [= <- <-]. by eapply send_build_timestamp.
  - intros tid p p'. simpl.
    destruct (pending p !! tid) as [[req entry]|]; [|discriminate].
    intros [= <-]. exists req, entry. simpl.
    by rewrite send_commit_messages.
  - intros tid req uuid now p entry Hfree Hbuild. simpl.
    rewrite Hfree, Hbuild. simpl. rewrite lookup_insert_eq.
    by rewrite send_unfold, Hbuild, delete_insert_id.
  - intros reqs s. apply serve_sorted.
Qed.

Lemma send_assigns_before_lock_witness :
  sorted_by_timestamp
    (messages (serve id [ (Send_message (Some "a") (Some "b") (Some "hi"), "m1", 1);
                          (Send_message (Some "a") (Some "all") (Some "hello"), "m2", 2) ]
                     initial_state)).
Proof.
  apply (proj2 (proj2 (proj2 (send_assigns_before_lock id)))).
  - constructor.
  - apply (bool_decide_unpack _). by vm_compute.
  - intros msg now Hmsg. by apply elem_of_nil in Hmsg.
Defined.

(** * Further properties of the handlers *)

Lemma truthy_false v : truthy v = false ↔ missing v.
Proof.
  unfold truthy, missing. destruct v as [v|]; [|by split; [left|]].
  case_bool_decide as Hv.
  - split; [done|]. intros [[=]|[= ->]]. done.
  - split; [|done]. intros _. right. by rewrite Hv.
Qed.

Lemma truthy_true v : truthy v = true ↔ ∃ x, v = Some x ∧ x ≠ "".
Proof.
  unfold truthy. destruct v as [v|]; [|by split; [|intros (x & [=] & _)]].
  case_bool_decide as Hv.
  - split; [by exists v|done].
  - split; [done|]. by intros (x & [= <-] & Hx).
Qed.

(** ** [send_message]: validation and the stored entry *)

(** X1.  [send_message] answers 400 ("Missing fields") exactly when the
    sender, the recipient or the text is missing or empty, and then
    changes nothing.  Otherwise it answers 200 and appends one entry
    that carries the three fields as sent, the type "message", the
    drawn id and the clock reading, leaving the registry alone. *)
Theorem send_message_validates (sender recipient text : option string)
    (uuid : string) (now : Z) (s : state) :
  (InvalidInput (send_message sender recipient text uuid now s).1
   ↔ missing sender ∨ missing recipient ∨ missing text)
  ∧ (InvalidInput (send_message sender recipient text uuid now s).1 →
       send_message sender recipient text uuid now s
       = ((Status_error "Missing fields", 400), s))
  ∧ (¬ InvalidInput (send_message sender recipient text uuid now s).1 →
       (send_message sender recipient text uuid now s).1 = (Status_ok, 200)
       ∧ users (send_message sender recipient text uuid now s).2 = users s
       ∧ ∃ entry,
           messages (send_message sender recipient text uuid now s).2
           = messages s ++ [entry]
           ∧ Some (from_user_id entry) = sender
           ∧ Some (to_user_id entry) = recipient
           ∧ Some (content entry) = text
           ∧ type entry = "message"
           ∧ msg_id entry = uuid
           ∧ timestamp entry = now).
Proof.
  unfold send_message, send_message_build, all, InvalidInput. simpl.
  destruct (truthy sender) eqn:Hs; simpl.
  2: { apply truthy_false in Hs. split; [split; [by left|done]|]. split; [done|]. lia. }
  destruct (truthy recipient) eqn:Hr; simpl.
  2: { apply truthy_false in Hr. split; [split; [by right; left|done]|].
       split; [done|]. lia. }
  destruct (truthy text) eqn:Ht; simpl.
  2: { apply truthy_false in Ht. split; [split; [by right; right|done]|].
       split; [done|]. lia. }
  apply truthy_true in Hs as (f & -> & Hf), Hr as (t & -> & Hr), Ht as (m & -> & Hm).
  split; [|split].
  - split; [lia|]. unfold missing. intros [[[=]|[=]]|[[[=]|[=]]|[[=]|[=]]]]; done.
  - lia.
  - intros _. split; [done|]. split; [done|]. eexists. split; [reflexivity|]. done.
Qed.

(** X2.  The sender's name is resolved when the message is sent: a
    sender found in the registry gives the entry the name registered
    under its id, and a sender that is not registered is not refused,
    the entry is stored under the name "Unknown". *)
Theorem send_message_sender_name (sender recipient text uuid : string) (now : Z)
    (s : state) (Hsender : sender ≠ "") (Hrecipient : recipient ≠ "")
    (Htext : text ≠ "") :
  (send_message (Some sender) (Some recipient) (Some text) uuid now s).1 = (Status_ok, 200)
  ∧ ∃ entry,
      messages (send_message (Some sender) (Some recipient) (Some text) uuid now s).2
      = messages s ++ [entry]
      ∧ (∀ info, users s !! sender = Some info → from_name entry = name info)
      ∧ (users s !! sender = None → from_name entry = "Unknown").
Proof.
  rewrite send_message_unfold by done.
  unfold send_message, send_message_build, all, truthy. simpl.
  rewrite !bool_decide_eq_true_2 by done. simpl.
  split; [done|]. eexists. split; [reflexivity|]. simpl. unfold lookup_name.
  split; [by intros info ->|by intros ->].
Qed.

Lemma send_message_sender_name_witness :
  ∃ entry,
    messages (send_message (Some "ghost") (Some "all") (Some "boo") "m1" 3
                initial_state).2 = [entry]
    ∧ from_name entry = "Unknown".
Proof.
  destruct (send_message_sender_name "ghost" "all" "boo" "m1" 3 initial_state)
    as (_ & entry & Hlog & _ & Hunknown); try discriminate.
  exists entry. split; [exact Hlog|]. apply Hunknown. reflexivity.
Defined.

(** ** [send_file]: the three outcomes *)

Lemma truthy_file_true file : truthy_file file = true ↔ filename file ≠ "".
Proof. unfold truthy_file. apply bool_decide_eq_true. Qed.

(** X3.  [send_file] answers 400 exactly when the form has no file
    part, the file has an empty name, or the sender or the recipient is
    missing or empty; nothing changes then.  With valid fields it
    answers 500 exactly when saving the file raised: the error is
    printed and reported, and nothing is stored in the log.  Otherwise
    it answers 200 with the sanitized file name and appends one entry of
    type "file" whose content is that sanitized name. *)
Theorem send_file_outcomes (secure_filename : string → string)
    (file : option FileStorage) (sender recipient save_error : option string)
    (uuid : string) (now : Z) (s : state) :
  let out := send_file secure_filename file sender recipient save_error uuid now s in
  (InvalidInput out.1
   ↔ file = None ∨ (∃ f, file = Some f ∧ filename f = "")
     ∨ missing sender ∨ missing recipient)
  ∧ (InvalidInput out.1 → out.2 = s)
  ∧ (out.1.2 = 500 ↔ ¬ InvalidInput out.1 ∧ is_Some save_error)
  ∧ (∀ e, out.1.2 = 500 → save_error = Some e →
       out.1 = (Status_error e, 500)
       ∧ messages out.2 = messages s
       ∧ users out.2 = users s
       ∧ stdout out.2 = stdout s ++ ["[Send File Error] " +:+ e])
  ∧ (succeeded out.1 ↔ ¬ InvalidInput out.1 ∧ save_error = None)
  ∧ (succeeded out.1 →
       ∃ f entry,
         file = Some f
         ∧ out.1 = (Status_ok_file (secure_filename (filename f)), 200)
         ∧ messages out.2 = messages s ++ [entry]
         ∧ users out.2 = users s
         ∧ type entry = "file"
         ∧ content entry = secure_filename (filename f)
         ∧ Some (from_user_id entry) = sender
         ∧ Some (to_user_id entry) = recipient
         ∧ from_name entry = lookup_name (from_user_id entry) s
         ∧ msg_id entry = uuid
         ∧ timestamp entry = now).
Proof.
  unfold send_file, send_file_build, all, InvalidInput, succeeded. simpl.
  destruct file as [f|]; simpl.
  2: { repeat split; try done; try lia. by left. }
  destruct (truthy_file f) eqn:Hf; simpl.
  2: { assert (filename f = "") as Hname.
       { destruct (decide (filename f = "")) as [|Hne]; [done|].
         apply truthy_file_true in Hne. congruence. }
       repeat split; try done; try lia. right; left; eauto. }
  apply truthy_file_true in Hf.
  destruct (truthy sender) eqn:Hs; simpl.
  2: { apply truthy_false in Hs.
       repeat split; try done; try lia. by right; right; left. }
  destruct (truthy recipient) eqn:Hr; simpl.
  2: { apply truthy_false in Hr.
       repeat split; try done; try lia. by right; right; right. }
  rewrite (bool_decide_eq_false_2 (filename f = "")) by done.
  apply truthy_true in Hs as (from & -> & Hfrom), Hr as (to & -> & Hto).
  assert (¬ (Some f = None ∨ (∃ f0, Some f = Some f0 ∧ filename f0 = "")
             ∨ missing (Some from) ∨ missing (Some to))) as Hvalid.
  { unfold missing. intros [[=]|[(f0 & [= <-] & ?)|[[[=]|[=]]|[[=]|[=]]]]]; done. }
  destruct save_error as [e|]; simpl.
  - repeat split; try done; try lia; try congruence. by intros [_ [=]].
  - repeat split; try done; try lia.
    + by intros [_ [? [=]]].
    + intros _. exists f. eexists. repeat split; reflexivity.
Qed.

(** X4.  The answer 400 "No selected file" of line 145 is never given:
    a file with an empty name has already been refused by the test of
    line 141, which answers "Missing fields". *)
Theorem send_file_never_no_selected_file (secure_filename : string → string)
    (file : option FileStorage) (sender recipient save_error : option string)
    (uuid : string) (now : Z) (s : state) :
  (send_file secure_filename file sender recipient save_error uuid now s).1
    ≠ (Status_error "No selected file", 400)
  ∧ (∀ f, file = Some f → filename f = "" →
       (send_file secure_filename file sender recipient save_error uuid now s).1
       = (Status_error "Missing fields", 400)).
Proof.
  unfold send_file, send_file_build, all. simpl. split.
  - destruct file as [f|]; simpl; [|done].
    destruct (truthy_file f) eqn:Hf; simpl; [|done].
    apply truthy_file_true in Hf.
    destruct (truthy sender), (truthy recipient); simpl; try done.
    rewrite (bool_decide_eq_false_2 (filename f = "")) by done.
    destruct save_error as [e|]; simpl; done.
  - intros f -> Hname. simpl.
    assert (truthy_file f = false) as ->; [|done].
    unfold truthy_file. by rewrite bool_decide_eq_false_2 by (by intros ?).
Qed.

(** ** [get_users]: the roster *)

Lemma roster_elem_of (s : state) user_id n :
  (user_id, n) ∈ (λ entry : string * user_info, (entry.1, name entry.2))
                   <$> map_to_list (users s)
  ↔ ∃ info, users s !! user_id = Some info ∧ name info = n.
Proof.
  rewrite list_elem_of_fmap. split.
  - intros ([id info] & [= -> ->] & Hin). exists info.
    by apply elem_of_map_to_list in Hin.
  - intros (info & Hin & <-). exists (user_id, info).
    split; [done|]. by apply elem_of_map_to_list.
Qed.

(** X5.  [get_users] answers 200 with one pair (id, name) per
    registered user and nothing else: a pair is listed exactly when the
    registry holds that name under that id, no id is listed twice, and
    the stores are left as they were. *)
Theorem get_users_roster (s : state) :
  ∃ l, get_users s = ((User_list l, 200), s)
       ∧ (∀ user_id n, (user_id, n) ∈ l
                       ↔ ∃ info, users s !! user_id = Some info ∧ name info = n)
       ∧ NoDup l.*1
       ∧ length l = size (users s).
Proof.
  eexists. split; [reflexivity|]. split; [|split].
  - apply roster_elem_of.
  - rewrite <- list_fmap_compose.
    replace (fst ∘ _) with (@fst string user_info) by done.
    apply NoDup_fst_map_to_list.
  - by rewrite length_fmap, length_map_to_list.
Qed.

(** ** The life of a user: login, heartbeat, pruning *)

Lemma login_unfold n uuid now s :
  n ≠ "" →
  users (login (Some n) uuid now s).2
  = <[uuid := {| name := n; last_seen := now |}]> (users s).
Proof.
  intros Hn. unfold login, truthy. by rewrite bool_decide_eq_true_2.
Qed.

Lemma heartbeat_unfold user_id now s :
  user_id ≠ "" → is_Some (users s !! user_id) →
  heartbeat (Some user_id) now s
  = ((Status_ok, 200),
     {| users := alter (set_last_seen now) user_id (users s);
        messages := messages s;
        stdout := stdout s |}).
Proof.
  intros Hid Hin. unfold heartbeat, truthy. simpl.
  by rewrite !bool_decide_eq_true_2.
Qed.

(** X6.  The id handed out by [login] is usable at once: a heartbeat on
    it is answered 200 whatever the clock, a message sent from it is
    stored under the name given at login, and the roster lists the id
    with that name. *)
Theorem login_then_use (n uuid : string) (now : Z) (s : state)
    (Hname : n ≠ "") (Huuid : uuid ≠ "") :
  (∀ now', (heartbeat (Some uuid) now' (login (Some n) uuid now s).2).1 = (Status_ok, 200))
  ∧ lookup_name uuid (login (Some n) uuid now s).2 = n
  ∧ (∃ l, (get_users (login (Some n) uuid now s).2).1 = (User_list l, 200)
          ∧ (uuid, n) ∈ l).
Proof.
  assert (users (login (Some n) uuid now s).2 !! uuid
          = Some {| name := n; last_seen := now |}) as Hin
    by (by rewrite login_unfold, lookup_insert_eq).
  split; [|split].
  - intros now'. rewrite heartbeat_unfold; [done|done|by rewrite Hin].
  - unfold lookup_name. by rewrite Hin.
  - eexists. split; [reflexivity|]. apply roster_elem_of. eauto.
Qed.

Lemma login_then_use_witness :
  lookup_name "A" (login (Some "Alice") "A" 0 initial_state).2 = "Alice".
Proof.
  apply (login_then_use "Alice" "A" 0 initial_state); discriminate.
Defined.

(** X7.  A user that logs in at [now] and sends no heartbeat survives a
    pruning pass at [now'] exactly when [now' - now < timeout].  Once
    pruned, the user is gone for good: every later heartbeat on its id
    is answered 404 and leaves the registry as it is. *)
Theorem login_prune_heartbeat (n uuid : string) (timeout now now' : Z) (s : state)
    (Hname : n ≠ "") :
  (is_Some (users (prune_pass timeout now' (login (Some n) uuid now s).2) !! uuid)
   ↔ now' - now < timeout)
  ∧ (now' - now >= timeout →
     ∀ now'',
       heartbeat (Some uuid) now'' (prune_pass timeout now' (login (Some n) uuid now s).2)
       = ((Status_error "User not found", 404),
          prune_pass timeout now' (login (Some n) uuid now s).2)).
Proof.
  assert (users (login (Some n) uuid now s).2 !! uuid
          = Some {| name := n; last_seen := now |}) as Hin
    by (by rewrite login_unfold, lookup_insert_eq).
  assert (is_Some (users (prune_pass timeout now' (login (Some n) uuid now s).2) !! uuid)
          ↔ now' - now < timeout) as Hkept.
  { split.
    - intros [info Hinfo]. apply prune_pass_lookup_Some in Hinfo as [Hinfo Hlt].
      rewrite Hin in Hinfo. by injection Hinfo as <-.
    - intros Hlt. eexists. apply prune_pass_lookup_Some. split; [exact Hin|done]. }
  split; [exact Hkept|]. intros Hstale now''.
  unfold heartbeat.
  rewrite (bool_decide_eq_false_2 (is_Some _)); [by rewrite andb_false_r|].
  simpl. rewrite Hkept. lia.
Qed.

Lemma login_prune_heartbeat_witness :
  NotFound (heartbeat (Some "A") 40
              (prune_pass USER_TIMEOUT 31 (login (Some "Alice") "A" 0 initial_state).2)).1.
Proof.
  unfold NotFound.
  rewrite (proj2 (login_prune_heartbeat "Alice" "A" USER_TIMEOUT 0 31 initial_state
                    ltac:(discriminate)) ltac:(unfold USER_TIMEOUT; lia) 40).
  reflexivity.
Defined.

(** X8.  A heartbeat at [t] is what keeps a registered user: after it,
    a pruning pass at [now] keeps the user exactly when
    [now - t < timeout], whatever [last_seen] was before; the time of
    the login no longer counts. *)
Theorem heartbeat_keeps_alive (user_id : string) (timeout t now : Z) (s : state)
    (Hid : user_id ≠ "") (Hin : is_Some (users s !! user_id)) :
  is_Some (users (prune_pass timeout now (heartbeat (Some user_id) t s).2) !! user_id)
  ↔ now - t < timeout.
Proof.
  destruct Hin as [info Hin].
  assert (users (heartbeat (Some user_id) t s).2 !! user_id
          = Some (set_last_seen t info)) as Hafter.
  { rewrite heartbeat_unfold by eauto. simpl.
    by rewrite lookup_alter, decide_True, Hin. }
  split.
  - intros [info' Hinfo']. apply prune_pass_lookup_Some in Hinfo' as [Hinfo' Hlt].
    rewrite Hafter in Hinfo'. by injection Hinfo' as <-.
  - intros Hlt. eexists. apply prune_pass_lookup_Some. split; [exact Hafter|done].
Qed.

Lemma heartbeat_keeps_alive_witness :
  let s := (login (Some "Alice") "A" 0 initial_state).2 in
  is_Some (users (prune_pass USER_TIMEOUT 50 (heartbeat (Some "A") 25 s).2) !! "A").
Proof.
  intros s.
  apply (heartbeat_keeps_alive "A" USER_TIMEOUT 25 50 s).
  - discriminate.
  - vm_compute. eauto.
  - unfold USER_TIMEOUT. lia.
Defined.

Lemma heartbeat_keeps_users user_id now s id info :
  users s !! id = Some info →
  ∃ info', users (heartbeat user_id now s).2 !! id = Some info'
           ∧ name info' = name info.
Proof.
  intros Hin. unfold heartbeat. destruct (_ && _); simpl; [|eauto].
  rewrite lookup_alter. case_decide as Heq; [|eauto].
  subst id. rewrite Hin. simpl. eauto.
Qed.

(** X9.  [heartbeat] never registers, removes or renames a user: for
    every request the set of registered ids is the same after it, and
    each user keeps its name. *)
Theorem heartbeat_preserves_ids (user_id : option string) (now : Z) (s : state) :
  dom (users (heartbeat user_id now s).2) = dom (users s)
  ∧ ∀ id info, users s !! id = Some info →
      ∃ info', users (heartbeat user_id now s).2 !! id = Some info'
               ∧ name info' = name info.
Proof.
  split; [|apply heartbeat_keeps_users].
  unfold heartbeat. destruct (_ && _); simpl; [apply dom_alter_L|done].
Qed.

(** ** Polling with a cursor *)

(** X10.  Raising the cursor only drops messages: for cursors
    [since ≤ since'], the answer for [since'] is the answer for [since]
    without its entries stamped at or before [since'], in the same
    order.  So a poller that moves its cursor to a timestamp it has
    received is not sent that entry, or any older one, again. *)
Theorem get_messages_cursor (user_id : string) (since since' : Z) (s : state)
    (Hid : user_id ≠ "") (Hle : since ≤ since') :
  ∃ l l',
    (get_messages (Some user_id) (Some since) s).1 = (Message_list l, 200)
    ∧ (get_messages (Some user_id) (Some since') s).1 = (Message_list l', 200)
    ∧ l' = filter (λ msg, timestamp msg > since') l
    ∧ l' `sublist_of` l
    ∧ (∀ msg, msg ∈ l → timestamp msg ≤ since' → msg ∉ l').
Proof.
  rewrite !get_messages_unfold by done. simpl.
  eexists _, _. split; [reflexivity|]. split; [reflexivity|].
  assert (filter (relevant user_id since') (messages s)
          = filter (λ msg, timestamp msg > since')
              (filter (relevant user_id since) (messages s))) as Heq.
  { rewrite list_filter_filter. apply list_filter_iff.
    intros msg. unfold relevant. intuition lia. }
  split; [exact Heq|]. split.
  - rewrite Heq. apply sublist_filter.
  - intros msg _ Hold. rewrite list_elem_of_filter. unfold relevant. lia.
Qed.

Lemma get_messages_cursor_witness :
  let s1 := (send_message (Some "A") (Some "B") (Some "hi") "m1" 5 initial_state).2 in
  let s2 := (send_message (Some "A") (Some "all") (Some "hello all") "m2" 6 s1).2 in
  ∃ l l',
    (get_messages (Some "B") (Some 0) s2).1 = (Message_list l, 200)
    ∧ (get_messages (Some "B") (Some 5) s2).1 = (Message_list l', 200)
    ∧ l' = filter (λ msg, timestamp msg > 5) l
    ∧ l' `sublist_of` l
    ∧ (∀ msg, msg ∈ l → timestamp msg ≤ 5 → msg ∉ l').
Proof.
  intros s1 s2. apply (get_messages_cursor "B" 0 5 s2); [discriminate|lia].
Defined.

Lemma get_messages_snoc user_id since s s' entry :
  messages s' = messages s ++ [entry] →
  (get_messages user_id since s').1
  = if truthy user_id then
      (Message_list
         (filter (relevant (default "" user_id) (default 0 since)) (messages s)
          ++ filter (relevant (default "" user_id) (default 0 since)) [entry]), 200)
    else (get_messages user_id since s).1.
Proof.
  intros Hlog. unfold get_messages. rewrite Hlog.
  destruct (truthy user_id); simpl; [|done]. by rewrite filter_app.
Qed.

(** X11.  An entry stored with a timestamp at or before a poller's
    cursor is never delivered on that cursor: a send (message or file)
    whose clock reading is not after [since] leaves the answer of
    [get_messages] for [since] as it was. *)
Theorem late_stamp_never_delivered (secure_filename : string → string)
    (req : send_request) (uuid : string) (now : Z)
    (user_id : option string) (since : Z) (s : state) (Hlate : now ≤ since) :
  (get_messages user_id (Some since) (send secure_filename req uuid now s).2).1
  = (get_messages user_id (Some since) s).1.
Proof.
  destruct (send_messages secure_filename req uuid now s) as [Heq|(entry & Hstamp & Heq)].
  - unfold get_messages. destruct (negb _); simpl; by rewrite ?Heq.
  - rewrite (get_messages_snoc _ _ s _ entry) by done.
    unfold get_messages. destruct (truthy user_id); simpl; [|done].
    rewrite filter_cons, filter_nil, decide_False, app_nil_r; [done|].
    unfold relevant. lia.
Qed.

Lemma late_stamp_never_delivered_witness :
  (get_messages (Some "b") (Some 2)
     (send id (Send_message (Some "a") (Some "b") (Some "hi")) "m1" 1 initial_state).2).1
  = (get_messages (Some "b") (Some 2) initial_state).1.
Proof.
  apply (late_stamp_never_delivered id _ "m1" 1 (Some "b") 2 initial_state). lia.
Defined.

(** X12.  Who gets a message.  A message stamped after the cursor is
    added at the end of the answer of a (non-empty) recipient exactly
    when it was sent to that recipient or to "all": a broadcast reaches
    everyone, its sender included, a message a user sends to its own id
    comes back to it, and nobody else sees a direct message. *)
Theorem send_message_delivery (sender recipient text uuid poller : string)
    (now since : Z) (s : state)
    (Hsender : sender ≠ "") (Hrecipient : recipient ≠ "") (Htext : text ≠ "")
    (Hpoller : poller ≠ "") (Hnew : since < now) :
  ∃ entry l,
    messages (send_message (Some sender) (Some recipient) (Some text) uuid now s).2
    = messages s ++ [entry]
    ∧ (get_messages (Some poller) (Some since) s).1 = (Message_list l, 200)
    ∧ (get_messages (Some poller) (Some since)
         (send_message (Some sender) (Some recipient) (Some text) uuid now s).2).1
      = (Message_list (if decide (recipient = poller ∨ recipient = "all")
                       then l ++ [entry] else l), 200).
Proof.
  eexists _, _. split; [by apply send_message_unfold|].
  split; [by rewrite get_messages_unfold|].
  rewrite (get_messages_snoc _ _ s _ _ (send_message_unfold _ _ _ _ _ _ Hsender Hrecipient Htext)).
  unfold truthy. rewrite bool_decide_eq_true_2 by done. simpl.
  rewrite filter_cons, filter_nil.
  destruct (decide (recipient = poller ∨ recipient = "all")) as [Hto|Hto].
  - by rewrite decide_True by (unfold relevant; simpl; split; [lia|done]).
  - rewrite decide_False by (unfold relevant; simpl; by intros [_ ?]).
    by rewrite app_nil_r.
Qed.

Lemma send_message_delivery_witness :
  ∃ entry l,
    messages (send_message (Some "A") (Some "A") (Some "note") "m1" 5 initial_state).2
    = messages initial_state ++ [entry]
    ∧ (get_messages (Some "A") (Some 0) initial_state).1 = (Message_list l, 200)
    ∧ (get_messages (Some "A") (Some 0)
         (send_message (Some "A") (Some "A") (Some "note") "m1" 5 initial_state).2).1
      = (Message_list (if decide ("A" = "A" ∨ "A" = "all") then l ++ [entry] else l), 200).
Proof.
  apply (send_message_delivery "A" "A" "note" "m1" "A" 5 0 initial_state);
    try discriminate; lia.
Defined.

(** ** What the sends and the reads leave alone *)

Lemma send_build_inl_users sf req uuid now s r s' :
  send_build sf req uuid now s = inl (r, s') → users s' = users s.
Proof.
  destruct req as [f t m|file f t err]; simpl.
  - unfold send_message_build. destruct (negb _); [|discriminate].
    by intros [= _ <-].
  - unfold send_file_build. destruct file as [file|]; [|by intros [= _ <-]].
    destruct (negb _); [by intros [= _ <-]|].
    case_bool_decide; [by intros [= _ <-]|].
    destruct err; [by intros [= _ <-]|discriminate].
Qed.

Lemma send_commit_users req entry s : users (send_commit req entry s).2 = users s.
Proof. destruct req; reflexivity. Qed.

Lemma send_users sf req uuid now s : users (send sf req uuid now s).2 = users s.
Proof.
  rewrite send_unfold.
  destruct (send_build sf req uuid now s) as [[r s']|entry] eqn:Hbuild.
  - eauto using send_build_inl_users.
  - apply send_commit_users.
Qed.

(** X13.  The registry is only written by [login], [heartbeat] and the
    pruning thread: sending a message or a file (accepted or refused),
    reading the messages and reading the roster all leave [users]
    exactly as it was. *)
Theorem registry_untouched_by_messages (secure_filename : string → string)
    (req : send_request) (user_id : option string) (since : option Z)
    (uuid : string) (now : Z) (s : state) :
  users (send secure_filename req uuid now s).2 = users s
  ∧ users (get_messages user_id since s).2 = users s
  ∧ users (get_users s).2 = users s.
Proof.
  split; [apply send_users|]. split; [|done]. by rewrite get_messages_state.
Qed.

(** ** Threads: nothing is lost, nothing is stored twice *)

Lemma step_log sf e p p' :
  step sf e p = Some p' →
  users (shared p') = users (shared p)
  ∧ ∃ new, messages (shared p') = messages (shared p) ++ new
           ∧ length new = commits [e].
Proof.
  destruct e as [tid req uuid now|tid]; simpl.
  - destruct (pending p !! tid); [discriminate|].
    destruct (send_build sf req uuid now (shared p)) as [[r s']|entry] eqn:Hbuild;
      intros [= <-]; simpl.
    + split; [by eapply send_build_inl_users|]. exists [].
      rewrite app_nil_r. split; [by eapply send_build_inl|done].
    + split; [done|]. exists []. by rewrite app_nil_r.
  - destruct (pending p !! tid) as [[req entry]|]; [|discriminate].
    intros [= <-]. simpl. split; [apply send_commit_users|].
    exists [entry]. split; [apply send_commit_messages|done].
Qed.

(** X14.  However the build and commit steps of the sending threads are
    interleaved, the log only grows at its end, by exactly one entry
    per commit taken: no entry is lost, overwritten or stored twice, and
    the registry is not touched. *)
Theorem exec_conserves_log (secure_filename : string → string)
    (trace : list event) (p p' : pool)
    (Hexec : exec secure_filename trace p = Some p') :
  messages (shared p) `prefix_of` messages (shared p')
  ∧ length (messages (shared p')) = (length (messages (shared p)) + commits trace)%nat
  ∧ users (shared p') = users (shared p).
Proof.
  revert p Hexec. induction trace as [|e trace IH]; intros p Hexec.
  - injection Hexec as <-. simpl. split; [done|]. split; [lia|done].
  - simpl in Hexec. destruct (step secure_filename e p) as [p1|] eqn:Hstep; [|discriminate].
    apply step_log in Hstep as (Husers & new & Hlog & Hlen).
    destruct (IH p1 Hexec) as (Hprefix & Hcount & Husers').
    split; [|split].
    + etrans; [|exact Hprefix]. rewrite Hlog. by apply prefix_app_r.
    + rewrite Hcount, Hlog, length_app, Hlen.
      destruct e; simpl; lia.
    + congruence.
Qed.

Lemma exec_conserves_log_witness :
  ∃ p', exec id (overlap "b" "all") idle = Some p'
        ∧ length (messages (shared p')) = 2%nat.
Proof.
  eexists. split; [vm_compute; reflexivity|].
  apply (exec_conserves_log id (overlap "b" "all") idle). vm_compute. reflexivity.
Defined.

(** ** A series of pruning passes *)

Lemma prune_users_loop_app timeout clock1 clock2 s :
  prune_users_loop timeout (clock1 ++ clock2) s
  = prune_users_loop timeout clock2 (prune_users_loop timeout clock1 s).2.
Proof.
  revert s. induction clock1 as [|now clock1 IH]; intros s; simpl; [done|apply IH].
Qed.

(** A user is in the registry after a series of passes when it was
    there before and has passed the test of each pass. *)
Lemma prune_users_loop_lookup timeout clock s user_id info :
  users (prune_users_loop timeout clock s).2 !! user_id = Some info
  ↔ users s !! user_id = Some info
    ∧ Forall (λ now, now - last_seen info < timeout) clock.
Proof.
  revert s. induction clock as [|now clock IH]; intros s; simpl.
  - split; [by intros ?|by intros [? _]].
  - rewrite IH, prune_pass_lookup_Some, Forall_cons. tauto.
Qed.

(** X15.  As long as no heartbeat or login comes in between, only the
    latest pruning pass matters: after passes at readings none of which
    is later than [now], followed by a pass at [now], the registry is
    what a single pass at [now] gives. *)
Theorem prune_passes_collapse (timeout now : Z) (clock : list Z) (s : state)
    (Hclock : Forall (λ t, t ≤ now) clock) :
  users (prune_users_loop timeout (clock ++ [now]) s).2
  = users (prune_pass timeout now s).
Proof.
  apply map_eq. intros user_id. apply option_eq. intros info.
  rewrite prune_users_loop_lookup, prune_pass_lookup_Some, Forall_app, Forall_singleton.
  split; [tauto|]. intros [Hin Hlt]. repeat split; [done| |done].
  eapply Forall_impl; [exact Hclock|]. simpl. intros t Ht. lia.
Qed.

Lemma prune_passes_collapse_witness :
  users (prune_users [30; 60; 90] (login (Some "Alice") "A" 65 initial_state).2).2
  = users (prune_pass USER_TIMEOUT 90 (login (Some "Alice") "A" 65 initial_state).2).
Proof.
  apply (prune_passes_collapse USER_TIMEOUT 90 [30; 60]).
  repeat constructor; lia.
Defined.

(** ** Invariants of the stores *)

Lemma perform_all_snoc sf ops op uuid now s :
  perform_all sf (ops ++ [(op, uuid, now)]) s
  = perform sf op uuid now (perform_all sf ops s).
Proof. unfold perform_all. by rewrite foldl_app. Qed.

(** X16.  From the empty stores, whatever requests and pruning passes
    are served, the registry never holds a user under the empty id, the
    tokens drawn for the logins being non-empty. *)
Theorem registry_wf_reachable (secure_filename : string → string)
    (ops : list (operation * string * Z))
    (Huuid : Forall (λ o, o.1.2 ≠ "") ops) :
  registry_wf (perform_all secure_filename ops initial_state).
Proof.
  induction ops as [|[[op uuid] now] ops IH] using rev_ind;
    [apply registry_wf_initial|].
  apply Forall_app in Huuid as [Hops Hlast]. rewrite Forall_singleton in Hlast.
  rewrite perform_all_snoc. apply registry_wf_perform; [exact Hlast|by apply IH].
Qed.

Lemma registry_wf_reachable_witness :
  registry_wf
    (perform_all id [ (Op_login (Some "Alice"), "A", 0);
                      (Op_heartbeat (Some "A"), "u", 7);
                      (Op_prune_pass USER_TIMEOUT, "v", 30) ] initial_state).
Proof.
  apply (registry_wf_reachable id). repeat constructor; discriminate.
Defined.

Lemma send_build_valid sf req uuid now s entry :
  send_build sf req uuid now s = inr entry → entry_valid entry ∧ msg_id entry = uuid.
Proof.
  unfold entry_valid. destruct req as [f t m|file f t err]; simpl.
  - unfold send_message_build, all. simpl.
    destruct (truthy f) eqn:Hf; simpl; [|discriminate].
    destruct (truthy t) eqn:Ht; simpl; [|discriminate].
    destruct (truthy m) eqn:Hm; simpl; [|discriminate].
    apply truthy_true in Hf as (? & -> & ?), Ht as (? & -> & ?), Hm as (? & -> & ?).
    intros [= <-]. simpl. split; [|done]. split; [done|]. split; [done|]. by left.
  - unfold send_file_build, all. destruct file as [file|]; [|discriminate]. simpl.
    destruct (truthy_file file); simpl; [|discriminate].
    destruct (truthy f) eqn:Hf; simpl; [|discriminate].
    destruct (truthy t) eqn:Ht; simpl; [|discriminate].
    case_bool_decide; [discriminate|].
    destruct err; [discriminate|].
    apply truthy_true in Hf as (? & -> & ?), Ht as (? & -> & ?).
    intros [= <-]. simpl. split; [|done]. split; [done|]. split; [done|]. by right.
Qed.

(** What an operation adds to the log. *)
Lemma perform_messages sf op uuid now s :
  messages (perform sf op uuid now s) = messages s
  ∨ ∃ entry, entry_valid entry ∧ msg_id entry = uuid
             ∧ messages (perform sf op uuid now s) = messages s ++ [entry].
Proof.
  destruct op as [n|uid| |req|uid since|timeout]; simpl.
  - left. apply login_messages.
  - left. apply heartbeat_messages.
  - by left.
  - rewrite send_unfold.
    destruct (send_build sf req uuid now s) as [[r s']|entry] eqn:Hbuild.
    + left. eauto using send_build_inl.
    + right. exists entry. apply send_build_valid in Hbuild as [? ?].
      split; [done|]. split; [done|]. apply send_commit_messages.
  - left. by rewrite get_messages_state.
  - by left.
Qed.

(** X17.  Every entry of the log has passed the tests of the send
    handlers: from the empty stores, whatever is served, each stored
    entry has a non-empty sender and a non-empty recipient, and is
    either a "message" with a non-empty text or a "file". *)
Theorem log_entries_valid (secure_filename : string → string)
    (ops : list (operation * string * Z)) :
  Forall entry_valid (messages (perform_all secure_filename ops initial_state)).
Proof.
  induction ops as [|[[op uuid] now] ops IH] using rev_ind; [by constructor|].
  rewrite perform_all_snoc.
  destruct (perform_messages secure_filename op uuid now
              (perform_all secure_filename ops initial_state))
    as [->|(entry & Hvalid & _ & ->)]; [done|].
  apply Forall_app. split; [done|]. by apply Forall_singleton.
Qed.

(** X18.  Message ids stay distinct as long as the drawn tokens are:
    if the ids of the log are pairwise distinct and the token drawn for
    an operation is none of them, the ids are still pairwise distinct
    after the operation. *)
Theorem msg_ids_distinct (secure_filename : string → string)
    (op : operation) (uuid : string) (now : Z) (s : state)
    (Hdistinct : NoDup (msg_id <$> messages s))
    (Hfresh : uuid ∉ msg_id <$> messages s) :
  NoDup (msg_id <$> messages (perform secure_filename op uuid now s)).
Proof.
  destruct (perform_messages secure_filename op uuid now s)
    as [->|(entry & _ & Hid & ->)]; [done|].
  rewrite fmap_app. simpl. apply NoDup_app. split; [done|].
  split; [|apply NoDup_singleton].
  intros id Hin ->%list_elem_of_singleton. congruence.
Qed.

Lemma msg_ids_distinct_witness :
  let s := (send_message (Some "A") (Some "B") (Some "hi") "m1" 5 initial_state).2 in
  NoDup (msg_id <$> messages
           (perform id (Op_send (Send_message (Some "A") (Some "all") (Some "yo"))) "m2" 6 s)).
Proof.
  intros s. apply (msg_ids_distinct id).
  - apply (bool_decide_unpack _). by vm_compute.
  - apply (bool_decide_unpack _). by vm_compute.
Defined.

(** X19.  There is no logout: the only operation that takes a user out
    of the registry is a pruning pass that finds it timed out.  If a
    registered id is absent after an operation, the operation was a
    pass with [now - last_seen >= timeout]. *)
Theorem user_removed_only_by_pruning (secure_filename : string → string)
    (op : operation) (uuid : string) (now : Z) (s : state)
    (user_id : string) (info : user_info)
    (Hbefore : users s !! user_id = Some info)
    (Hafter : users (perform secure_filename op uuid now s) !! user_id = None) :
  ∃ timeout, op = Op_prune_pass timeout ∧ now - last_seen info >= timeout.
Proof.
  destruct op as [n|uid| |req|uid since|timeout]; simpl in Hafter.
  - exfalso. unfold login in Hafter. destruct (negb _); simpl in Hafter; [congruence|].
    rewrite lookup_insert in Hafter. case_decide; congruence.
  - exfalso.
    destruct (heartbeat_keeps_users uid now s user_id info Hbefore) as (info' & Hin & _).
    congruence.
  - exfalso. unfold get_users in Hafter. simpl in Hafter. congruence.
  - exfalso. rewrite send_users in Hafter. congruence.
  - exfalso. rewrite get_messages_state in Hafter. congruence.
  - exists timeout. split; [done|].
    destruct (decide (now - last_seen info >= timeout)) as [|Hlt]; [done|].
    assert (users (prune_pass timeout now s) !! user_id = Some info) as Hkept
      by (apply prune_pass_lookup_Some; split; [done|lia]).
    simpl in Hkept. congruence.
Qed.

Lemma user_removed_only_by_pruning_witness :
  ∃ timeout, Op_prune_pass USER_TIMEOUT = Op_prune_pass timeout ∧ 31 - 0 >= timeout.
Proof.
  apply (user_removed_only_by_pruning id (Op_prune_pass USER_TIMEOUT) "u" 31
           (login (Some "Alice") "A" 0 initial_state).2 "A"
           {| name := "Alice"; last_seen := 0 |}); reflexivity.
Defined.
